(** * game-solver: negamax engine, null-window solver and Nim

    Shallow embedding of [src/src/lib.rs] (the [Game] and
    [TranspositionTable] traits, [negamax], [solve], [move_scores]) and of
    [src/crates/games/src/nim/mod.rs] (the [Nim] game).

    Integers: [u32] and [i32] values are [Z]; the [as i32] casts and the
    [i32] operators [+], [-], unary [-] and [/] are written with their
    two's-complement wrap-around (the release-profile semantics of Rust).

    Recursion: Rust's call stack and its [while] loop have no bound; the
    embedding threads a [depth] (the available stack depth of [negamax])
    and an [iters] (the available iterations of the [while] loop of
    [solve]) and returns [None] when one of them is exhausted. *)

From Stdlib Require Import ZArith List Lia Bool.
Import ListNotations.

Open Scope Z_scope.

(** ** Machine integers *)

(** Two's-complement reduction of an integer to the [i32] range. *)
Definition wrap_i32 (z : Z) : Z := (z + 2 ^ 31) mod 2 ^ 32 - 2 ^ 31.

(** [x as i32] for an [x : u32]. *)
Definition u32_as_i32 (x : Z) : Z := wrap_i32 x.

Definition i32_add (a b : Z) : Z := wrap_i32 (a + b).
Definition i32_sub (a b : Z) : Z := wrap_i32 (a - b).
Definition i32_neg (a : Z) : Z := wrap_i32 (- a).
(** Rust's [/] on integers truncates toward zero: [Z.quot]. *)
Definition i32_div (a b : Z) : Z := wrap_i32 (Z.quot a b).

Definition i32_MIN : Z := - 2 ^ 31.

(** ** Players *)

Inductive Player := P1 | P2.

Definition opposite (p : Player) : Player :=
  match p with
  | P1 => P2
  | P2 => P1
  end.

(** ** The [Game] and [TranspositionTable] traits *)

(** [Eq] on game states, required by the engine ([T: Eq + Hash]). *)
Class EqDec (A : Type) := eq_dec : forall x y : A, {x = y} + {x <> y}.

(** The [Game] trait.  [make_move] is [&mut self -> bool]: it returns the
    flag and the updated state.  [score] and [max_score] are [u32],
    [min_score] is [i32]. *)
Class Game (G Mv : Type) := {
  player : G -> Player;
  score : G -> Z;
  max_score : G -> Z;
  min_score : G -> Z;
  make_move : G -> Mv -> bool * G;
  possible_moves : G -> list Mv;
  is_winning_move : G -> Mv -> bool;
  is_draw : G -> bool
}.

(** The [TranspositionTable] trait, with the table threaded explicitly
    (it is passed as [&mut dyn TranspositionTable<T>]). *)
Class TranspositionTable (G Tbl : Type) := {
  get : Tbl -> G -> option Z;
  insert : Tbl -> G -> Z -> Tbl;
  has : Tbl -> G -> bool
}.

(** ** The [HashMap] implementation of [TranspositionTable] *)

Section HashMapTable.
Context {K : Type} `{EqDec K}.

(** A [HashMap<K, i32>] seen through [Eq]: a list of bindings, each key
    at most once. *)
Definition HashMap := list (K * Z).

Definition hm_empty : HashMap := [].

Fixpoint hm_get (m : HashMap) (k : K) : option Z :=
  match m with
  | [] => None
  | (k', v) :: m' => if eq_dec k k' then Some v else hm_get m' k
  end.

(** [HashMap::insert] replaces the binding of [k]. *)
Definition hm_insert (m : HashMap) (k : K) (v : Z) : HashMap :=
  (k, v) :: filter (fun kv => if eq_dec k (fst kv) then false else true) m.

Definition hm_has (m : HashMap) (k : K) : bool :=
  match hm_get m k with Some _ => true | None => false end.

End HashMapTable.

#[global] Instance hashmap_table {K : Type} `{EqDec K} :
  TranspositionTable K (@HashMap K) :=
  {| get := hm_get; insert := hm_insert; has := hm_has |}.

(** ** [negamax], [solve], [move_scores] *)

Section Engine.
Context {G Mv Tbl : Type} `{GM : Game G Mv} `{TT : TranspositionTable G Tbl}.

(** [let mut board = game.clone(); board.make_move(m); board] *)
Definition child (g : G) (m : Mv) : G := snd (make_move g m).

(** The second [for] loop of [negamax], over the moves [ms] still to be
    tried, with the current [alpha]; [rec] is the recursive call. *)
Fixpoint negamax_moves (rec : G -> Tbl -> Z -> Z -> option (Z * Tbl))
    (g : G) (beta : Z) (ms : list Mv) (t : Tbl) (alpha : Z)
    : option (Z * Tbl) :=
  match ms with
  | [] => Some (alpha, insert t g alpha)
  | m :: ms' =>
      match rec (child g m) t (i32_neg beta) (i32_neg alpha) with
      | None => None
      | Some (r, t') =>
          let s := i32_neg r in
          if beta <=? s then Some (beta, t')
          else negamax_moves rec g beta ms' t' (if alpha <? s then s else alpha)
      end
  end.

Fixpoint negamax (depth : nat) (g : G) (t : Tbl) (alpha beta : Z)
    : option (Z * Tbl) :=
  if is_draw g then Some (0, t) else
  match find (is_winning_move g) (possible_moves g) with
  | Some m => Some (u32_as_i32 (score (child g m)), t)
  | None =>
      let max := match get t g with
                 | Some x => x
                 | None => u32_as_i32 (max_score g)
                 end in
      if (max <? beta) && (max <=? alpha) then Some (max, t)
      else
        let beta' := if max <? beta then max else beta in
        match depth with
        | O => None
        | S d => negamax_moves (negamax d) g beta' (possible_moves g) t alpha
        end
  end.

(** The [while alpha < beta] loop of [solve]. *)
Fixpoint solve_loop (iters depth : nat) (g : G) (t : Tbl) (alpha beta : Z)
    : option (Z * Tbl) :=
  if alpha <? beta then
    match iters with
    | O => None
    | S n =>
        let med := i32_add alpha (i32_div (i32_sub beta alpha) 2) in
        match negamax depth g t med (i32_add med 1) with
        | None => None
        | Some (r, t') =>
            if r <=? med then solve_loop n depth g t' alpha r
            else solve_loop n depth g t' r beta
        end
    end
  else Some (alpha, t).

Definition solve (iters depth : nat) (g : G) (t : Tbl) : option (Z * Tbl) :=
  solve_loop iters depth g t (min_score g) (i32_add (u32_as_i32 (max_score g)) 1).

(** [move_scores], its iterator run to the end. *)
Fixpoint move_scores_from (iters depth : nat) (g : G) (ms : list Mv) (t : Tbl)
    : option (list (Mv * Z) * Tbl) :=
  match ms with
  | [] => Some ([], t)
  | m :: ms' =>
      match solve iters depth (child g m) t with
      | None => None
      | Some (r, t') =>
          match move_scores_from iters depth g ms' t' with
          | None => None
          | Some (l, t'') => Some ((m, i32_neg r) :: l, t'')
          end
      end
  end.

Definition move_scores (iters depth : nat) (g : G) (t : Tbl)
    : option (list (Mv * Z) * Tbl) :=
  move_scores_from iters depth g (possible_moves g) t.

End Engine.

(** ** Reference: unpruned, uncached minimax *)

(** Values with the two infinities: a non-draw position without moves has
    value [NegInf] (the maximum of no children). *)
Inductive ext := NegInf | Fin (z : Z) | PosInf.


Definition ext_le (v w : ext) : Prop :=
  match v, w with
  | NegInf, _ => True
  | _, PosInf => True
  | Fin a, Fin b => a <= b
  | _, _ => False
  end.



Section Reference.
Context {G Mv : Type} `{GM : Game G Mv}.



End Reference.

(** ** Explicit game graphs

    A [Game] given by its graph: positions are numbered, a move names the
    position it leads to. *)

Record GameGraph := {
  gg_moves : nat -> list nat;
  gg_winning : nat -> nat -> bool;
  gg_draw : nat -> bool;
  gg_score : nat -> Z;
  gg_max : Z;
  gg_min : Z
}.

#[global] Instance nat_eq_dec : EqDec nat := Nat.eq_dec.

Definition graph_game (gr : GameGraph) : Game nat nat := {|
  player := fun _ => P1;
  score := gg_score gr;
  max_score := fun _ => gg_max gr;
  min_score := fun _ => gg_min gr;
  make_move := fun n m =>
    if existsb (Nat.eqb m) (gg_moves gr n) then (true, m) else (false, n);
  possible_moves := gg_moves gr;
  is_winning_move := gg_winning gr;
  is_draw := gg_draw gr
|}.

(** ** Nim ([crates/games/src/nim/mod.rs]) *)

Module Nim.

(** [struct Nim { heaps: Vec<usize>, move_count: usize, max_score: usize }] *)
Record Nim := mkNim {
  heaps : list nat;
  move_count : nat;
  max_score : nat
}.

(** [Nim::new]: [max_score] is the sum of the heaps. *)
Definition new (hs : list nat) : Nim :=
  {| heaps := hs; move_count := 0; max_score := fold_right Nat.add 0%nat hs |}.

Inductive ZeroSumPlayer := One | Two.

Definition player (g : Nim) : ZeroSumPlayer :=
  if Nat.even (move_count g) then One else Two.

(** [self.heaps[i] = v] for an index [i] in bounds. *)
Fixpoint set_nth (i : nat) (v : nat) (l : list nat) : list nat :=
  match l, i with
  | [], _ => []
  | _ :: l', O => v :: l'
  | x :: l', S i' => x :: set_nth i' v l'
  end.

(** [Nim::make_move]: moves are [(heap, amount)]. *)
Definition make_move (g : Nim) (m : nat * nat) : bool * Nim :=
  let (heap, amount) := m in
  if (length (heaps g) <=? heap)%nat then (false, g)
  else if (nth heap (heaps g) 0%nat <? amount)%nat then (false, g)
  else (true, {| heaps := set_nth heap (nth heap (heaps g) 0%nat - amount) (heaps g);
                 move_count := S (move_count g);
                 max_score := max_score g |}).

(** The loops of [Nim::possible_moves]: heap [i] contributes
    [(i, 1), ..., (i, heap)]. *)
Fixpoint moves_from (i : nat) (hs : list nat) : list (nat * nat) :=
  match hs with
  | [] => []
  | h :: hs' => map (fun j => (i, j)) (seq 1 h) ++ moves_from (S i) hs'
  end.

Definition possible_moves (g : Nim) : list (nat * nat) := moves_from 0 (heaps g).

Definition is_winning_move (g : Nim) (m : nat * nat) : option ZeroSumPlayer :=
  let board := snd (make_move g m) in
  match possible_moves board with
  | [] => Some (player g)
  | _ :: _ => None
  end.

Definition is_draw (_ : Nim) : bool := false.

(** The number of objects left: the sum [Nim::new] computes. *)
Definition total (g : Nim) : nat := fold_right Nat.add 0%nat (heaps g).



(** Modelled from the spec: the default methods of the [Game] trait that
    [Nim] implements ([game_solver::game], whose source is not part of the
    sources) are missing.  [max_moves] is [Some max_score] (in the source);
    following the spec ("[max_score] ... for finite games, the count of
    remaining moves", "[min_score] is the corresponding negative lower
    bound") and the documented default of [score] ("the size minus the
    number of moves"), [max_score] is [max_moves], [min_score] is its
    negation and [score] is [max_moves - move_count]. *)
Definition default_score (g : Nim) : Z := Z.of_nat (max_score g - move_count g).
Definition default_max_score (g : Nim) : Z := Z.of_nat (max_score g).
Definition default_min_score (g : Nim) : Z := - Z.of_nat (max_score g).

End Nim.

#[global] Instance nim_eq_dec : EqDec Nim.Nim.
Proof.
  intros [h1 c1 s1] [h2 c2 s2].
  destruct (list_eq_dec Nat.eq_dec h1 h2), (Nat.eq_dec c1 c2), (Nat.eq_dec s1 s2);
    subst; first [left; reflexivity | right; intros E; inversion E; contradiction].
Defined.

#[global] Instance nim_game : Game Nim.Nim (nat * nat) := {|
  player := fun g => match Nim.player g with Nim.One => P1 | Nim.Two => P2 end;
  score := Nim.default_score;
  max_score := Nim.default_max_score;
  min_score := Nim.default_min_score;
  make_move := Nim.make_move;
  possible_moves := Nim.possible_moves;
  is_winning_move := fun g m =>
    match Nim.is_winning_move g m with Some _ => true | None => false end;
  is_draw := Nim.is_draw
|}.

(** ** Definitions used by the correctness argument *)

(** The bound below which no [i32] operation of the engine wraps. *)
Definition Bnd : Z := 2 ^ 30.

Section Analysis.
Context {G Mv Tbl : Type} `{GM : Game G Mv} `{TT : TranspositionTable G Tbl}.







(** A draw, or a position with a winning move: [negamax] returns its
    value whatever the window. *)
Definition exact_node (g : G) : bool :=
  is_draw g ||
  match find (is_winning_move g) (possible_moves g) with Some _ => true | None => false end.



(** Positions [negamax] visits from [g0]. *)
Inductive reach (g0 : G) : G -> Prop :=
  | reach_root : reach g0 g0
  | reach_step h m :
      reach g0 h -> is_draw h = false ->
      find (is_winning_move h) (possible_moves h) = None ->
      In m (possible_moves h) -> reach g0 (child h m).

(** A position [negamax] searches from [g0] past its shortcuts: reached,
    not a draw, and without a winning move. *)
Definition searched (g0 h : G) : Prop :=
  reach g0 h /\ is_draw h = false /\ find (is_winning_move h) (possible_moves h) = None.

(** Two tables answering [get] alike. *)
Definition same_table {Tbl1 Tbl2 : Type}
    `{TranspositionTable G Tbl1} `{TranspositionTable G Tbl2}
    (t1 : Tbl1) (t2 : Tbl2) : Prop :=
  forall g, get t1 g = get t2 g.

(** Two outcomes of a search over two tables: the same value, and tables
    still answering alike. *)
Definition same_result {Tbl1 Tbl2 : Type}
    `{TranspositionTable G Tbl1} `{TranspositionTable G Tbl2}
    (o1 : option (Z * Tbl1)) (o2 : option (Z * Tbl2)) : Prop :=
  match o1, o2 with
  | Some (r1, u1), Some (r2, u2) => r1 = r2 /\ same_table u1 u2
  | None, None => True
  | _, _ => False
  end.

End Analysis.

(** ** Concrete games used below *)

(** A terminal position (no moves, not a draw) whose [min_score] is
    [i32::MIN]. *)
Definition stuck_game : GameGraph := {|
  gg_moves := fun _ => [];
  gg_winning := fun _ _ => false;
  gg_draw := fun _ => false;
  gg_score := fun _ => 0;
  gg_max := 0;
  gg_min := i32_MIN
|}.

(** 0 -> 1 -> 2: the move 1 -> 2 wins with [score 2 = 3], so the first
    player loses by 3; position 3 is a draw. *)
Definition chain_game (lo : Z) : GameGraph := {|
  gg_moves := fun n => match n with 0%nat => [1%nat] | 1%nat => [2%nat] | _ => [] end;
  gg_winning := fun n m => Nat.eqb n 1 && Nat.eqb m 2;
  gg_draw := fun n => Nat.eqb n 3;
  gg_score := fun n => if Nat.eqb n 2 then 3 else 0;
  gg_max := 5;
  gg_min := lo
|}.

(** A winning move reaching a [score] of [2^31 - 1]. *)
Definition big_score_game : GameGraph := {|
  gg_moves := fun n => match n with 0%nat => [1%nat] | _ => [] end;
  gg_winning := fun n m => Nat.eqb n 0 && Nat.eqb m 1;
  gg_draw := fun _ => false;
  gg_score := fun n => if Nat.eqb n 1 then 2 ^ 31 - 1 else 0;
  gg_max := 2 ^ 31 - 1;
  gg_min := - 5
|}.


(** * Properties *)

(** ** Draws *)

(** C6: on a draw, [negamax] returns 0 for every window and hands the
    table back untouched (nothing is inserted). *)
Theorem negamax_draw {G Mv Tbl : Type} `{GM : Game G Mv} `{TT : TranspositionTable G Tbl}
    (depth : nat) (g : G) (t : Tbl) (alpha beta : Z) :
  is_draw g = true -> negamax depth g t alpha beta = Some (0, t).
Proof.
  intros Hd. destruct depth; simpl; rewrite Hd; reflexivity.
Qed.

Lemma negamax_draw_witness :
  @is_draw _ _ (graph_game (chain_game (-5))) 3%nat = true /\
  negamax (GM := graph_game (chain_game (-5))) 4 3%nat hm_empty (-2) 7 = Some (0, hm_empty).
Proof.
  split; [reflexivity | apply negamax_draw; reflexivity].
Defined.

(** ** Shape of [move_scores] *)

Lemma move_scores_from_fst {G Mv Tbl : Type} `{GM : Game G Mv} `{TT : TranspositionTable G Tbl}
    (iters depth : nat) (g : G) (ms : list Mv) :
  forall t l t', move_scores_from iters depth g ms t = Some (l, t') -> map fst l = ms.
Proof.
  induction ms as [|m ms IH]; simpl; intros t l t' E.
  - injection E as <- _. reflexivity.
  - destruct (solve iters depth (child g m) t) as [[r t1]|]; [|discriminate].
    destruct (move_scores_from iters depth g ms t1) as [[l1 t2]|] eqn:E1; [|discriminate].
    injection E as <- _. simpl. f_equal. exact (IH _ _ _ E1).
Qed.

(** C8: [move_scores] yields one pair per element of [possible_moves],
    in the order of [possible_moves]. *)
Theorem move_scores_moves {G Mv Tbl : Type} `{GM : Game G Mv} `{TT : TranspositionTable G Tbl}
    (iters depth : nat) (g : G) (t : Tbl) (l : list (Mv * Z)) (t' : Tbl) :
  move_scores iters depth g t = Some (l, t') -> map fst l = possible_moves g.
Proof.
  unfold move_scores. apply move_scores_from_fst.
Qed.

Lemma move_scores_moves_witness :
  move_scores (GM := graph_game (chain_game (-5))) 20 5 0%nat hm_empty
    = Some ([(1%nat, -3)], []) /\
  map fst [(1%nat, -3)] = @possible_moves _ _ (graph_game (chain_game (-5))) 0%nat.
Proof.
  split; [vm_compute; reflexivity|].
  apply (move_scores_moves (GM := graph_game (chain_game (-5))) 20 5 0%nat hm_empty _
           []).
  vm_compute. reflexivity.
Defined.

(** ** Nim *)


(** C5 (evidence): [Nim::make_move] accepts a removal of zero objects: on
    [Nim::new(vec![1])] the move [(0, 0)] is not produced by
    [possible_moves], yet [make_move] returns [true] and counts a move. *)
Theorem nim_make_move_zero_amount :
  ~ In (0%nat, 0%nat) (Nim.possible_moves (Nim.new [1%nat])) /\
  Nim.make_move (Nim.new [1%nat]) (0%nat, 0%nat)
    = (true, {| Nim.heaps := [1%nat]; Nim.move_count := 1; Nim.max_score := 1 |}) /\
  Nim.new [1%nat] <> {| Nim.heaps := [1%nat]; Nim.move_count := 1; Nim.max_score := 1 |}.
Proof.
  split; [|split].
  - simpl. intros [E | []]. discriminate.
  - reflexivity.
  - discriminate.
Qed.

(** C9 (evidence): on [Nim::new(vec![1])], [possible_moves] is [[(0, 1)]]
    and [move_scores] yields [[((0, 1), 1)]], but [solve] returns 0. *)
Theorem nim_single_heap :
  Nim.possible_moves (Nim.new [1%nat]) = [(0%nat, 1%nat)] /\
  option_map fst (solve 10 10 (Nim.new [1%nat]) hm_empty) = Some 0 /\
  option_map fst (move_scores 10 10 (Nim.new [1%nat]) hm_empty)
    = Some [((0%nat, 1%nat), 1)].
Proof.
  vm_compute. repeat split.
Qed.

(** ** Machine-integer conversions *)

Lemma wrap_i32_small (z : Z) : - 2 ^ 31 <= z < 2 ^ 31 -> wrap_i32 z = z.
Proof.
  intros Hz. unfold wrap_i32.
  rewrite Z.mod_small by lia. lia.
Qed.

(** C10 (as amended): an [as i32] cast of a [u32] keeps its value up to
    [2^31 - 1] and gives [x - 2^32] from [2^31] on; [max_score() as i32 + 1]
    is exact up to [max_score() = 2^31 - 2] and wraps to [i32::MIN] at
    [2^31 - 1]. *)
Theorem u32_as_i32_ranges :
  (forall x, 0 <= x <= 2 ^ 31 - 1 -> u32_as_i32 x = x) /\
  (forall x, 2 ^ 31 <= x < 2 ^ 32 -> u32_as_i32 x = x - 2 ^ 32) /\
  (forall x, 0 <= x <= 2 ^ 31 - 2 -> i32_add (u32_as_i32 x) 1 = x + 1) /\
  i32_add (u32_as_i32 (2 ^ 31 - 1)) 1 = i32_MIN.
Proof.
  split; [|split; [|split]].
  - intros x Hx. apply wrap_i32_small. lia.
  - intros x Hx. unfold u32_as_i32, wrap_i32.
    rewrite (Z.mod_eq (x + 2 ^ 31)) by lia.
    replace ((x + 2 ^ 31) / 2 ^ 32) with 1.
    + lia.
    + apply Z.div_unique_pos with (x + 2 ^ 31 - 2 ^ 32); lia.
  - intros x Hx. unfold i32_add, u32_as_i32.
    rewrite (wrap_i32_small x) by lia. apply wrap_i32_small. lia.
  - vm_compute. reflexivity.
Qed.

Lemma u32_as_i32_ranges_witness :
  u32_as_i32 7 = 7 /\ u32_as_i32 (2 ^ 31) = - 2 ^ 31 /\
  i32_add (u32_as_i32 (2 ^ 31 - 2)) 1 = 2 ^ 31 - 1.
Proof.
  destruct u32_as_i32_ranges as [A [B [C _]]].
  split; [apply A; lia | split].
  - rewrite B by lia. reflexivity.
  - rewrite C by lia. reflexivity.
Defined.

(** C10 (counterexample): a [score()] of [2^31 - 1], above [2^31 - 2], is
    not wrapped: [negamax] returns it as the positive [i32] it is. *)
Lemma big_score_not_wrapped :
  @score _ _ (graph_game big_score_game) 1%nat = 2 ^ 31 - 1 /\
  negamax (GM := graph_game big_score_game) 1 0%nat hm_empty 0 1
    = Some (2 ^ 31 - 1, hm_empty) /\
  0 < 2 ^ 31 - 1.
Proof.
  vm_compute. repeat split.
Qed.

(** ** Termination of the null-window loop *)

Lemma stuck_negamax (depth : nat) (alpha beta : Z) :
  0 < beta -> 0 <= alpha ->
  negamax (GM := graph_game stuck_game) depth 0%nat hm_empty alpha beta
    = Some (0, hm_empty).
Proof.
  intros Hb Ha.
  assert (E : (0 <? beta) && (0 <=? alpha) = true).
  { apply andb_true_intro. split; [apply Z.ltb_lt | apply Z.leb_le]; lia. }
  destruct depth; cbn -[Z.ltb Z.leb]; change (u32_as_i32 0) with 0; rewrite E; reflexivity.
Qed.

Lemma stuck_solve_loop (iters depth : nat) :
  solve_loop (GM := graph_game stuck_game) iters depth 0%nat hm_empty i32_MIN 0 = None.
Proof.
  induction iters as [|n IH]; [reflexivity|].
  cbn -[negamax Z.ltb Z.leb i32_add i32_div i32_sub].
  replace (i32_add i32_MIN (i32_div (i32_sub 0 i32_MIN) 2)) with (2 ^ 30)
    by (vm_compute; reflexivity).
  rewrite stuck_negamax by (vm_compute; congruence).
  exact IH.
Qed.

(** C7 (evidence): for the terminal position of [stuck_game]
    ([max_score() = 0], [min_score() = i32::MIN]) the loop of [solve] never
    ends: [beta - alpha] wraps, [med] falls outside [alpha..beta], and the
    state [(alpha, beta) = (i32::MIN, 0)] repeats; no number of iterations
    suffices. *)
Theorem solve_loops_forever_at_i32_min (iters depth : nat) :
  solve (GM := graph_game stuck_game) iters depth 0%nat hm_empty = None.
Proof.
  destruct iters as [|n]; [reflexivity|].
  unfold solve.
  cbn -[negamax Z.ltb Z.leb i32_add i32_div i32_sub u32_as_i32].
  replace (i32_add i32_MIN (i32_div (i32_sub (i32_add (u32_as_i32 0) 1) i32_MIN) 2))
    with (2 ^ 30 + 1) by (vm_compute; reflexivity).
  rewrite stuck_negamax by (vm_compute; congruence).
  apply stuck_solve_loop.
Qed.

(** ** Counterexamples to the unconditional statements *)



(** ** Values with infinities *)

Ltac ext_cases :=
  repeat match goal with
         | v : ext |- _ => destruct v
         end; simpl in *; try lia; auto.

Lemma ext_le_refl (v : ext) : ext_le v v.
Proof. ext_cases. Qed.











(** ** Correctness of [negamax] and [solve]

    For a finite game (a [rank] that every move lowers), a lawful table,
    and scores and bounds strictly inside [(-2^30, 2^30)] (so that no
    [i32] operation of the engine wraps), [negamax] is a fail-soft search
    of the value [W t g] (minimax in which each searched position is
    capped by its table entry, else by [max_score]), and every insertion
    it makes leaves [W] unchanged. *)

Section Correctness.
Context {G Mv Tbl : Type} `{GM : Game G Mv} `{TT : TranspositionTable G Tbl} `{ED : EqDec G}.

Variable rank : G -> nat.
Hypothesis rank_child :
  forall g m, In m (possible_moves g) -> (rank (child g m) < rank g)%nat.
Hypothesis get_insert :
  forall t k v k', get (insert t k v) k' = if eq_dec k k' then Some v else get t k'.
Hypothesis score_range : forall g, 0 <= score g < Bnd.
Hypothesis max_score_range : forall g, 0 <= max_score g < Bnd.
Hypothesis min_score_range : forall g, - Bnd < min_score g.







Lemma u32_as_i32_small (x : Z) : 0 <= x < Bnd -> u32_as_i32 x = x.
Proof. intros Hx. apply wrap_i32_small. unfold Bnd in *. lia. Qed.





Lemma midpoint (al be : Z) :
  - Bnd < al -> al < be -> be <= Bnd ->
  i32_add al (i32_div (i32_sub be al) 2) = al + (be - al) / 2 /\
  al <= al + (be - al) / 2 < be /\
  i32_add (al + (be - al) / 2) 1 = al + (be - al) / 2 + 1.
Proof.
  intros H1 H2 H3. unfold Bnd in *.
  assert (Hd : 0 <= (be - al) / 2 < be - al) by (Z.div_mod_to_equations; lia).
  unfold i32_add, i32_sub, i32_div.
  rewrite (wrap_i32_small (be - al)) by lia.
  rewrite Z.quot_div_nonneg by lia.
  rewrite (wrap_i32_small ((be - al) / 2)) by lia.
  rewrite (wrap_i32_small (al + (be - al) / 2)) by lia.
  split; [reflexivity|]. split; [lia|]. apply wrap_i32_small. lia.
Qed.














End Correctness.


(** ** Runs on different tables

    The engine reads a table only through [get]: two tables that answer
    [get] alike, of any two lawful implementations, lead to the same
    results. *)

Section Determinism.
Context {G Mv : Type} `{GM : Game G Mv} `{ED : EqDec G}.
Context {Tbl1 Tbl2 : Type} `{TT1 : TranspositionTable G Tbl1} `{TT2 : TranspositionTable G Tbl2}.

Hypothesis get_insert1 :
  forall (t : Tbl1) k v k', get (insert t k v) k' = if eq_dec k k' then Some v else get t k'.
Hypothesis get_insert2 :
  forall (t : Tbl2) k v k', get (insert t k v) k' = if eq_dec k k' then Some v else get t k'.

Lemma same_table_insert (t1 : Tbl1) (t2 : Tbl2) (k : G) (v : Z) :
  same_table t1 t2 -> same_table (insert t1 k v) (insert t2 k v).
Proof.
  intros Hs h. rewrite get_insert1, get_insert2. destruct (eq_dec k h); auto.
Qed.

Lemma negamax_same (d : nat) :
  forall g (t1 : Tbl1) (t2 : Tbl2) a b, same_table t1 t2 ->
    same_result (negamax d g t1 a b) (negamax d g t2 a b).
Proof.
  induction d as [|d IH]; intros g t1 t2 a b Hs; cbn [negamax];
    destruct (is_draw g); [split; auto| |split; auto|];
    (destruct (find (is_winning_move g) (possible_moves g)); [split; auto|]);
    rewrite (Hs g);
    (destruct ((match get t2 g with Some x => x | None => u32_as_i32 (max_score g) end <? b) &&
               (match get t2 g with Some x => x | None => u32_as_i32 (max_score g) end <=? a));
     [split; auto|]).
  - exact I.
  - set (bp := if match get t2 g with Some x => x | None => u32_as_i32 (max_score g) end <? b
               then match get t2 g with Some x => x | None => u32_as_i32 (max_score g) end
               else b).
    clearbody bp. generalize (possible_moves g) as ms.
    intros ms. revert t1 t2 a Hs.
    induction ms as [|m ms IHms]; intros t1 t2 al Hs; cbn [negamax_moves].
    + split; [reflexivity|]. apply same_table_insert. exact Hs.
    + pose proof (IH (child g m) t1 t2 (i32_neg bp) (i32_neg al) Hs) as Hc.
      destruct (negamax d (child g m) t1 (i32_neg bp) (i32_neg al)) as [[r1 u1]|];
        destruct (negamax d (child g m) t2 (i32_neg bp) (i32_neg al)) as [[r2 u2]|];
        try contradiction; [|exact I].
      destruct Hc as [<- Hu].
      destruct (bp <=? i32_neg r1); [split; auto|]. apply IHms. exact Hu.
Qed.

Lemma solve_loop_same (iters depth : nat) :
  forall g (t1 : Tbl1) (t2 : Tbl2) a b, same_table t1 t2 ->
    same_result (solve_loop iters depth g t1 a b) (solve_loop iters depth g t2 a b).
Proof.
  induction iters as [|n IH]; intros g t1 t2 a b Hs; cbn [solve_loop];
    (destruct (a <? b); [|split; auto]).
  - exact I.
  - set (med := i32_add a (i32_div (i32_sub b a) 2)).
    pose proof (negamax_same depth g t1 t2 med (i32_add med 1) Hs) as Hc.
    destruct (negamax depth g t1 med (i32_add med 1)) as [[r1 u1]|];
      destruct (negamax depth g t2 med (i32_add med 1)) as [[r2 u2]|];
      try contradiction; [|exact I].
    destruct Hc as [<- Hu].
    destruct (r1 <=? med); apply IH; exact Hu.
Qed.

(** C4: [solve] on two fresh tables (empty, of the same or of two
    different lawful implementations) gives the same outcome. *)
Theorem solve_fresh_tables (iters depth : nat) (g : G) (t1 : Tbl1) (t2 : Tbl2) :
  (forall h, get t1 h = None) -> (forall h, get t2 h = None) ->
  option_map fst (solve iters depth g t1) = option_map fst (solve iters depth g t2).
Proof.
  intros E1 E2.
  assert (Hs : same_table t1 t2) by (intros h; rewrite E1, E2; reflexivity).
  pose proof (solve_loop_same iters depth g t1 t2 (min_score g)
                (i32_add (u32_as_i32 (max_score g)) 1) Hs) as H.
  unfold solve.
  destruct (solve_loop iters depth g t1 _ _) as [[r1 u1]|];
    destruct (solve_loop iters depth g t2 _ _) as [[r2 u2]|];
    try contradiction; [|reflexivity].
  destruct H as [<- _]. reflexivity.
Qed.

End Determinism.

(** ** The hypotheses on a concrete game and table *)

Lemma hm_get_insert {K : Type} `{EqDec K} (t : @HashMap K) (k : K) (v : Z) (k' : K) :
  hm_get (hm_insert t k v) k' = if eq_dec k k' then Some v else hm_get t k'.
Proof.
  unfold hm_insert. simpl. destruct (eq_dec k' k) as [Ek|Hne].
  - destruct (eq_dec k k') as [_|C]; [reflexivity|]. exfalso. congruence.
  - destruct (eq_dec k k') as [C|_]; [exfalso; congruence|].
    induction t as [|[k1 v1] t IH]; simpl; [reflexivity|].
    destruct (eq_dec k k1) as [Ek1|Hk1]; simpl.
    + rewrite IH. destruct (eq_dec k' k1); [exfalso; congruence | reflexivity].
    + destruct (eq_dec k' k1); [reflexivity | exact IH].
Qed.

Lemma hm_table_law (t : @HashMap nat) (k : nat) (v : Z) (k' : nat) :
  get (insert t k v) k' = if eq_dec k k' then Some v else get t k'.
Proof. apply hm_get_insert. Qed.

Section ChainGame.
Variable lo : Z.
Hypothesis lo_range : - Bnd < lo.







End ChainGame.

(** ** Instances of the correctness theorems on [chain_game (-5)] *)




Lemma solve_fresh_tables_witness :
  option_map fst (solve (GM := graph_game (chain_game (-5))) 11 3 0%nat (@hm_empty nat)) =
  option_map fst (solve (GM := graph_game (chain_game (-5))) 11 3 0%nat (@hm_empty nat)).
Proof.
  apply (solve_fresh_tables (GM := graph_game (chain_game (-5))) hm_table_law hm_table_law);
    intros h; reflexivity.
Defined.

(** * Further properties of the engine and of Nim *)

(** ** The [HashMap] table *)

(** After [insert(k, v)], [get(k)] is [v] and [has(k)] holds; every other
    key keeps its binding. *)
Theorem hm_insert_get {K : Type} `{EqDec K} (t : @HashMap K) (k : K) (v : Z) :
  hm_get (hm_insert t k v) k = Some v /\ hm_has (hm_insert t k v) k = true /\
  (forall k', k' <> k -> hm_get (hm_insert t k v) k' = hm_get t k').
Proof.
  unfold hm_has. rewrite !hm_get_insert.
  destruct (eq_dec k k) as [_|C]; [|congruence].
  split; [reflexivity|]. split; [reflexivity|].
  intros k' Hne. rewrite hm_get_insert. destruct (eq_dec k k'); [congruence | reflexivity].
Qed.

(** ** Window and table effects of [negamax] *)

Section EngineFacts.
Context {G Mv Tbl : Type} `{GM : Game G Mv} `{TT : TranspositionTable G Tbl}.

Lemma negamax_moves_window (rec : G -> Tbl -> Z -> Z -> option (Z * Tbl)) (g : G) (bp : Z) :
  forall ms t al r t', negamax_moves rec g bp ms t al = Some (r, t') ->
    al < bp -> al <= r <= bp.
Proof.
  induction ms as [|m ms IH]; intros t al r t' E Hlt; cbn [negamax_moves] in E.
  - injection E as <- _. lia.
  - destruct (rec (child g m) t (i32_neg bp) (i32_neg al)) as [[rc t1]|]; [|discriminate].
    revert E. destruct (Z.leb_spec bp (i32_neg rc)) as [Hc|Hc]; intros E.
    + injection E as <- _. lia.
    + revert E. destruct (Z.ltb_spec al (i32_neg rc)); intros E;
        pose proof (IH _ _ _ _ E ltac:(lia)); lia.
Qed.

Lemma exact_node_false (g : G) :
  exact_node g = false ->
  is_draw g = false /\ find (is_winning_move g) (possible_moves g) = None.
Proof.
  unfold exact_node. destruct (is_draw g); [discriminate|].
  destruct (find (is_winning_move g) (possible_moves g)); [discriminate|]. auto.
Qed.

Lemma negamax_window_aux (d : nat) (g : G) (t : Tbl) (a b r : Z) (t' : Tbl) :
  is_draw g = false -> find (is_winning_move g) (possible_moves g) = None ->
  a < b -> negamax d g t a b = Some (r, t') ->
  r <= b /\ (a <= r \/ (r <= a /\ t' = t)).
Proof.
  intros Hd Hw Hab E. destruct d; cbn [negamax] in E; rewrite Hd, Hw in E;
    set (mx := match get t g with Some x => x | None => u32_as_i32 (max_score g) end) in E;
    revert E; destruct (Z.ltb_spec mx b); destruct (Z.leb_spec mx a); cbn [andb];
    intros E; try discriminate;
    try (injection E as <- <-; split; [lia | right; split; [lia | reflexivity]]);
    pose proof (negamax_moves_window _ _ _ _ _ _ _ _ E ltac:(lia)); lia.
Qed.

(** For a position that is neither a draw nor has a winning move, and a
    non-empty window [alpha < beta], [negamax] returns at most [beta]; its
    result is at least [alpha] unless it returned the table's bound early,
    with the table untouched. *)
Theorem negamax_window_bounds (d : nat) (g : G) (t : Tbl) (a b r : Z) (t' : Tbl) :
  is_draw g = false -> find (is_winning_move g) (possible_moves g) = None ->
  a < b -> negamax d g t a b = Some (r, t') ->
  r <= b /\ (a <= r \/ (r <= a /\ t' = t)).
Proof. apply negamax_window_aux. Qed.

Lemma solve_loop_range (iters depth : nat) (g : G) :
  forall t al be r t', - Bnd < al -> be <= Bnd ->
    solve_loop iters depth g t al be = Some (r, t') ->
    al <= r /\ (exact_node g = false -> r <= Z.max al be).
Proof.
  induction iters as [|n IH]; intros t al be r t' Ha Hb E; cbn [solve_loop] in E;
    revert E; destruct (Z.ltb_spec al be) as [Hlt|Hge]; intros E;
    try discriminate; try (injection E as <- _; lia).
  destruct (midpoint al be Ha Hlt Hb) as [Em [Hmed Em1]].
  rewrite Em, Em1 in E. set (med := al + (be - al) / 2) in *.
  destruct (negamax depth g t med (med + 1)) as [[r0 t1]|] eqn:En; [|discriminate].
  revert E. destruct (Z.leb_spec r0 med); intros E.
  - destruct (IH t1 al r0 r t' Ha ltac:(unfold Bnd in *; lia) E) as [H1 H2].
    split; [exact H1|]. intros Hx. specialize (H2 Hx). lia.
  - destruct (IH t1 r0 be r t' ltac:(lia) Hb E) as [H1 H2].
    split; [lia|]. intros Hx. specialize (H2 Hx).
    destruct (exact_node_false g Hx) as [Hd Hw].
    destruct (negamax_window_aux depth g t med (med + 1) r0 t1 Hd Hw ltac:(lia) En). lia.
Qed.

(** [solve] never answers below [min_score()], whatever the table holds;
    unless the position is a draw or has a winning move, it never answers
    above [max(min_score(), max_score() + 1)]. *)
Theorem solve_range (iters depth : nat) (g : G) (t : Tbl) (r : Z) (t' : Tbl) :
  - Bnd < min_score g -> 0 <= max_score g < Bnd ->
  solve iters depth g t = Some (r, t') ->
  min_score g <= r /\
  (exact_node g = false -> r <= Z.max (min_score g) (max_score g + 1)).
Proof.
  intros Hmn Hmx E. unfold solve in E.
  rewrite (u32_as_i32_small (max_score g) Hmx) in E.
  replace (i32_add (max_score g) 1) with (max_score g + 1) in E
    by (symmetry; apply wrap_i32_small; unfold Bnd in *; lia).
  assert (Hb : max_score g + 1 <= Bnd) by lia.
  exact (solve_loop_range iters depth g t _ _ r t' Hmn Hb E).
Qed.

(** When [min_score() >= max_score() + 1] the loop of [solve] does not run:
    [solve] returns [min_score()] and leaves the table as it was. *)
Theorem solve_empty_window (iters depth : nat) (g : G) (t : Tbl) :
  0 <= max_score g <= 2 ^ 31 - 2 -> max_score g + 1 <= min_score g ->
  solve iters depth g t = Some (min_score g, t).
Proof.
  intros Hmx Hle. unfold solve.
  replace (i32_add (u32_as_i32 (max_score g)) 1) with (max_score g + 1).
  - destruct iters; cbn [solve_loop];
      destruct (Z.ltb_spec (min_score g) (max_score g + 1)); first [lia | reflexivity].
  - unfold i32_add, u32_as_i32. rewrite (wrap_i32_small (max_score g)) by lia.
    symmetry. apply wrap_i32_small. lia.
Qed.

Context `{ED : EqDec G}.
Hypothesis get_insert :
  forall t k v k', get (insert t k v) k' = if eq_dec k k' then Some v else get t k'.

Lemma reach_trans (g c h : G) : reach c h -> reach g c -> reach g h.
Proof.
  intros H. induction H as [|h' m Hr IH Hd Hw Hm]; intros Hc; [exact Hc|].
  apply reach_step; auto.
Qed.

Lemma searched_child (g : G) (m : Mv) (h : G) :
  is_draw g = false -> find (is_winning_move g) (possible_moves g) = None ->
  In m (possible_moves g) -> searched (child g m) h -> searched g h.
Proof.
  intros Hd Hw Hm [Hr [H1 H2]]. split; [|split; assumption].
  apply (reach_trans g (child g m) h Hr). apply reach_step; [apply reach_root | ..]; assumption.
Qed.

(** [negamax] changes the table only at positions it searched: positions
    reached from [g] that are neither draws nor have a winning move. *)
Theorem negamax_writes_only_searched (d : nat) :
  forall g t a b r t', negamax d g t a b = Some (r, t') ->
    forall h, get t' h <> get t h -> searched g h.
Proof.
  induction d as [|d IH]; intros g t a b r t' E h Hne; cbn [negamax] in E;
    (destruct (is_draw g) eqn:Hd; [injection E as _ <-; congruence|]);
    (destruct (find (is_winning_move g) (possible_moves g)) eqn:Hw;
      [injection E as _ <-; congruence|]);
    set (mx := match get t g with Some x => x | None => u32_as_i32 (max_score g) end) in E;
    revert E; (destruct ((mx <? b) && (mx <=? a)); [intros E; injection E as _ <-; congruence|]);
    intros E; [discriminate|].
  assert (Hm : forall bp ms t0 al r0 t0',
            (forall m, In m ms -> In m (possible_moves g)) ->
            negamax_moves (negamax d) g bp ms t0 al = Some (r0, t0') ->
            forall h0, get t0' h0 <> get t0 h0 -> searched g h0).
  { intros bp. induction ms as [|m ms IHms]; intros t0 al r0 t0' Hin E0 h0 Hne0;
      cbn [negamax_moves] in E0.
    - injection E0 as _ <-. rewrite get_insert in Hne0.
      destruct (eq_dec g h0) as [<-|]; [|congruence].
      split; [apply reach_root | split; assumption].
    - assert (Hmi : In m (possible_moves g)) by (apply Hin; left; reflexivity).
      destruct (negamax d (child g m) t0 (i32_neg bp) (i32_neg al)) as [[rc t1]|] eqn:Ec;
        [|discriminate].
      assert (Hdec : {get t1 h0 = get t0 h0} + {get t1 h0 <> get t0 h0})
        by (decide equality; apply Z.eq_dec).
      destruct Hdec as [Heq|Hneq].
      + revert E0. destruct (bp <=? i32_neg rc); intros E0.
        * injection E0 as _ <-. congruence.
        * eapply IHms; [| exact E0 |].
          -- intros m' Hm'. apply Hin. right. exact Hm'.
          -- congruence.
      + apply (searched_child g m h0 Hd Hw Hmi).
        exact (IH _ _ _ _ _ _ Ec h0 Hneq). }
  exact (Hm _ (possible_moves g) t a r t' (fun m H => H) E h Hne).
Qed.

End EngineFacts.

(** ** Nim *)

Section NimFacts.
Local Open Scope nat_scope.

Lemma nim_moves_from_in (i a j : nat) (hs : list nat) :
  In (a, j) (Nim.moves_from i hs) <->
  (i <= a < i + length hs)%nat /\ (1 <= j <= nth (a - i) hs 0)%nat.
Proof.
  revert i. induction hs as [|h hs IH]; intros i; simpl.
  - split; [intros [] | lia].
  - rewrite in_app_iff, in_map_iff, IH. split.
    + intros [[j' [E Hj]] | [H1 H2]].
      * injection E as <- <-. apply in_seq in Hj.
        rewrite Nat.sub_diag. simpl. lia.
      * split; [lia|]. replace (a - i)%nat with (S (a - S i)) by lia. exact H2.
    + intros [H1 H2]. destruct (Nat.eq_dec a i) as [->|Hne].
      * left. exists j. split; [reflexivity|]. apply in_seq.
        rewrite Nat.sub_diag in H2. simpl in H2. lia.
      * right. split; [lia|]. replace (a - i)%nat with (S (a - S i)) in H2 by lia. exact H2.
Qed.

Lemma nim_moves_from_length (i : nat) (hs : list nat) :
  length (Nim.moves_from i hs) = fold_right Nat.add 0%nat hs.
Proof.
  revert i. induction hs as [|h hs IH]; intros i; simpl; [reflexivity|].
  rewrite length_app, length_map, length_seq, IH. reflexivity.
Qed.

Lemma nim_set_nth_length (a v : nat) (hs : list nat) :
  length (Nim.set_nth a v hs) = length hs.
Proof.
  revert a. induction hs as [|x hs IH]; intros a; destruct a; simpl; try reflexivity.
  rewrite IH. reflexivity.
Qed.

Lemma nim_nth_set_nth_same (a v : nat) (hs : list nat) :
  (a < length hs)%nat -> nth a (Nim.set_nth a v hs) 0%nat = v.
Proof.
  revert a. induction hs as [|x hs IH]; intros a Ha; simpl in Ha; [lia|].
  destruct a; simpl; [reflexivity|]. apply IH. lia.
Qed.

Lemma nim_nth_set_nth_other (a b v : nat) (hs : list nat) :
  b <> a -> nth b (Nim.set_nth a v hs) 0%nat = nth b hs 0%nat.
Proof.
  revert a b. induction hs as [|x hs IH]; intros a b Hne; destruct a, b; simpl;
    try reflexivity; try lia. apply IH. lia.
Qed.

Lemma nim_set_nth_sum (a v : nat) (hs : list nat) :
  (a < length hs)%nat ->
  (fold_right Nat.add 0 (Nim.set_nth a v hs) + nth a hs 0 = fold_right Nat.add 0 hs + v)%nat.
Proof.
  revert a. induction hs as [|x hs IH]; intros a Ha; simpl in Ha; [lia|].
  destruct a as [|a]; simpl; [lia|]. specialize (IH a ltac:(lia)). lia.
Qed.

Lemma nim_possible_in (g : Nim.Nim) (a j : nat) :
  In (a, j) (Nim.possible_moves g) <->
  (a < length (Nim.heaps g))%nat /\ (1 <= j <= nth a (Nim.heaps g) 0)%nat.
Proof.
  unfold Nim.possible_moves. rewrite nim_moves_from_in, Nat.sub_0_r.
  split; intros [H1 H2]; split; lia.
Qed.

Lemma nim_make_move_possible_eq (g : Nim.Nim) (a j : nat) :
  In (a, j) (Nim.possible_moves g) ->
  Nim.make_move g (a, j) =
  (true, {| Nim.heaps := Nim.set_nth a (nth a (Nim.heaps g) 0 - j) (Nim.heaps g);
            Nim.move_count := S (Nim.move_count g);
            Nim.max_score := Nim.max_score g |}).
Proof.
  intros Hin. apply nim_possible_in in Hin. destruct Hin as [H1 H2].
  unfold Nim.make_move.
  destruct (Nat.leb_spec (length (Nim.heaps g)) a); [lia|].
  destruct (Nat.ltb_spec (nth a (Nim.heaps g) 0) j); [lia|].
  reflexivity.
Qed.

Lemma nim_possible_move_total (g : Nim.Nim) (a j : nat) :
  In (a, j) (Nim.possible_moves g) ->
  (Nim.total (snd (Nim.make_move g (a, j))) + j = Nim.total g /\ 1 <= j)%nat.
Proof.
  intros Hin. pose proof (proj1 (nim_possible_in g a j) Hin) as [H1 H2].
  rewrite (nim_make_move_possible_eq g a j Hin). unfold Nim.total. simpl.
  pose proof (nim_set_nth_sum a (nth a (Nim.heaps g) 0 - j) (Nim.heaps g) H1). lia.
Qed.

(** [(heap, amount)] is among [possible_moves] exactly when [heap] indexes
    a heap and [1 <= amount <= heaps[heap]]. *)
Theorem nim_possible_moves_iff (g : Nim.Nim) (a j : nat) :
  In (a, j) (Nim.possible_moves g) <->
  (a < length (Nim.heaps g))%nat /\ (1 <= j <= nth a (Nim.heaps g) 0)%nat.
Proof. apply nim_possible_in. Qed.

(** [possible_moves] lists as many moves as there are objects left. *)
Theorem nim_possible_moves_count (g : Nim.Nim) :
  length (Nim.possible_moves g) = Nim.total g.
Proof. apply nim_moves_from_length. Qed.

(** [make_move] refuses a move exactly when its heap index is out of
    bounds or it removes more objects than the heap holds; a refused move
    leaves the state as it was. *)
Theorem nim_make_move_refuses (g : Nim.Nim) (a j : nat) :
  (fst (Nim.make_move g (a, j)) = false <->
   (length (Nim.heaps g) <= a \/ nth a (Nim.heaps g) 0 < j)%nat) /\
  (fst (Nim.make_move g (a, j)) = false -> snd (Nim.make_move g (a, j)) = g).
Proof.
  unfold Nim.make_move.
  destruct (Nat.leb_spec (length (Nim.heaps g)) a).
  - simpl. split; [split; intros; [lia | reflexivity] | reflexivity].
  - destruct (Nat.ltb_spec (nth a (Nim.heaps g) 0) j); simpl.
    + split; [split; intros; [lia | reflexivity] | reflexivity].
    + split; [split; intros H'; [discriminate | lia] | discriminate].
Qed.

(** A move from [possible_moves] is accepted: it takes [amount] objects
    from heap [heap], leaves the other heaps and their number alone, counts
    one move and keeps [max_score]. *)
Theorem nim_make_move_effect (g : Nim.Nim) (a j : nat) :
  In (a, j) (Nim.possible_moves g) ->
  fst (Nim.make_move g (a, j)) = true /\
  nth a (Nim.heaps (snd (Nim.make_move g (a, j)))) 0 = (nth a (Nim.heaps g) 0 - j)%nat /\
  (forall b, b <> a ->
     nth b (Nim.heaps (snd (Nim.make_move g (a, j)))) 0 = nth b (Nim.heaps g) 0) /\
  length (Nim.heaps (snd (Nim.make_move g (a, j)))) = length (Nim.heaps g) /\
  Nim.move_count (snd (Nim.make_move g (a, j))) = S (Nim.move_count g) /\
  Nim.max_score (snd (Nim.make_move g (a, j))) = Nim.max_score g.
Proof.
  intros Hin. pose proof (proj1 (nim_possible_in g a j) Hin) as [H1 H2].
  rewrite (nim_make_move_possible_eq g a j Hin). simpl.
  split; [reflexivity|]. split; [apply nim_nth_set_nth_same; exact H1|].
  split; [intros b Hb; apply nim_nth_set_nth_other; exact Hb|].
  split; [apply nim_set_nth_length|]. split; reflexivity.
Qed.

(** Every move of [possible_moves] lowers the number of objects left:
    Nim is a finite game, ranked by that number. *)
Theorem nim_possible_move_decreases (g : Nim.Nim) (m : nat * nat) :
  In m (Nim.possible_moves g) ->
  (Nim.total (snd (Nim.make_move g m)) < Nim.total g)%nat.
Proof.
  destruct m as [a j]. intros Hin.
  pose proof (nim_possible_move_total g a j Hin). lia.
Qed.

(** [is_winning_move] names the player to move exactly when the board
    after the move (the unchanged board for a refused move) has no object
    left, and is [None] otherwise. *)
Theorem nim_is_winning_move_iff (g : Nim.Nim) (m : nat * nat) (p : Nim.ZeroSumPlayer) :
  Nim.is_winning_move g m = Some p <->
  p = Nim.player g /\ Nim.total (snd (Nim.make_move g m)) = 0%nat.
Proof.
  unfold Nim.is_winning_move. cbv zeta.
  pose proof (nim_moves_from_length 0 (Nim.heaps (snd (Nim.make_move g m)))) as L.
  fold (Nim.possible_moves (snd (Nim.make_move g m))) in L.
  fold (Nim.total (snd (Nim.make_move g m))) in L.
  destruct (Nim.possible_moves (snd (Nim.make_move g m))); simpl in L.
  - split; [intros E; injection E as <-; auto | intros [-> _]; reflexivity].
  - split; [discriminate | intros [_ H]; lia].
Qed.

(** An accepted move passes the turn: [player] changes. *)
Theorem nim_make_move_switches_player (g : Nim.Nim) (m : nat * nat) :
  fst (Nim.make_move g m) = true ->
  Nim.player (snd (Nim.make_move g m)) <> Nim.player g.
Proof.
  destruct m as [a j]. unfold Nim.make_move.
  destruct (Nat.leb_spec (length (Nim.heaps g)) a); [simpl; intros Hf; discriminate Hf|].
  destruct (Nat.ltb_spec (nth a (Nim.heaps g) 0) j); [simpl; intros Hf; discriminate Hf|].
  intros _. unfold Nim.player. cbn [snd Nim.move_count].
  rewrite Nat.even_succ, <- Nat.negb_even.
  destruct (Nat.even (Nim.move_count g)); discriminate.
Qed.



End NimFacts.

(** ** Instances of the further properties *)

Lemma negamax_window_bounds_witness :
  negamax (GM := graph_game (chain_game (-5))) (Tbl := @HashMap nat) 3 0%nat hm_empty (-10) 10
    = Some (-3, [(0%nat, -3)]) /\
  -3 <= 10 /\ (-10 <= -3 \/ (-3 <= -10 /\ [(0%nat, -3)] = hm_empty)).
Proof.
  split; [vm_compute; reflexivity|].
  apply (negamax_window_bounds (GM := graph_game (chain_game (-5))) (Tbl := @HashMap nat)
           3 0%nat hm_empty (-10) 10 (-3) [(0%nat, -3)]).
  - vm_compute. reflexivity.
  - vm_compute. reflexivity.
  - lia.
  - vm_compute. reflexivity.
Defined.

Lemma solve_range_witness :
  solve (GM := graph_game (chain_game (-5))) (Tbl := @HashMap nat) 11 3 0%nat hm_empty
    = Some (-3, [(0%nat, -3)]) /\
  @min_score _ _ (graph_game (chain_game (-5))) 0%nat <= -3 /\
  (exact_node (GM := graph_game (chain_game (-5))) 0%nat = false ->
   -3 <= Z.max (@min_score _ _ (graph_game (chain_game (-5))) 0%nat)
               (@max_score _ _ (graph_game (chain_game (-5))) 0%nat + 1)).
Proof.
  split; [vm_compute; reflexivity|].
  apply (solve_range (GM := graph_game (chain_game (-5))) (Tbl := @HashMap nat)
           11 3 0%nat hm_empty (-3) [(0%nat, -3)]).
  - simpl. unfold Bnd. lia.
  - simpl. unfold Bnd. lia.
  - vm_compute. reflexivity.
Defined.

Lemma solve_empty_window_witness :
  0 <= @max_score _ _ (graph_game (chain_game 6)) 0%nat <= 2^31 - 2 /\
  @max_score _ _ (graph_game (chain_game 6)) 0%nat + 1
    <= @min_score _ _ (graph_game (chain_game 6)) 0%nat /\
  solve (GM := graph_game (chain_game 6)) (Tbl := @HashMap nat) 0 0 0%nat hm_empty
    = Some (6, hm_empty).
Proof.
  assert (H1 : 0 <= @max_score _ _ (graph_game (chain_game 6)) 0%nat <= 2^31 - 2)
    by (simpl; lia).
  assert (H2 : @max_score _ _ (graph_game (chain_game 6)) 0%nat + 1
                 <= @min_score _ _ (graph_game (chain_game 6)) 0%nat) by (simpl; lia).
  split; [exact H1|]. split; [exact H2|].
  exact (solve_empty_window (GM := graph_game (chain_game 6)) (Tbl := @HashMap nat)
           0 0 0%nat hm_empty H1 H2).
Defined.

Lemma negamax_writes_only_searched_witness :
  negamax (GM := graph_game (chain_game (-5))) (Tbl := @HashMap nat) 3 0%nat hm_empty (-10) 10
    = Some (-3, [(0%nat, -3)]) /\
  searched (GM := graph_game (chain_game (-5))) 0%nat 0%nat.
Proof.
  split; [vm_compute; reflexivity|].
  apply (negamax_writes_only_searched (GM := graph_game (chain_game (-5))) (Tbl := @HashMap nat)
           hm_table_law 3 0%nat hm_empty (-10) 10 (-3) [(0%nat, -3)]).
  - vm_compute. reflexivity.
  - vm_compute. discriminate.
Defined.


Lemma nim_make_move_effect_witness :
  In (0%nat, 2%nat) (Nim.possible_moves (Nim.new [2%nat; 1%nat])) /\
  fst (Nim.make_move (Nim.new [2%nat; 1%nat]) (0%nat, 2%nat)) = true /\
  nth 0 (Nim.heaps (snd (Nim.make_move (Nim.new [2%nat; 1%nat]) (0%nat, 2%nat)))) 0%nat
    = (nth 0 (Nim.heaps (Nim.new [2%nat; 1%nat])) 0 - 2)%nat /\
  (forall b, b <> 0%nat ->
     nth b (Nim.heaps (snd (Nim.make_move (Nim.new [2%nat; 1%nat]) (0%nat, 2%nat)))) 0%nat
     = nth b (Nim.heaps (Nim.new [2%nat; 1%nat])) 0%nat) /\
  length (Nim.heaps (snd (Nim.make_move (Nim.new [2%nat; 1%nat]) (0%nat, 2%nat))))
    = length (Nim.heaps (Nim.new [2%nat; 1%nat])) /\
  Nim.move_count (snd (Nim.make_move (Nim.new [2%nat; 1%nat]) (0%nat, 2%nat)))
    = S (Nim.move_count (Nim.new [2%nat; 1%nat])) /\
  Nim.max_score (snd (Nim.make_move (Nim.new [2%nat; 1%nat]) (0%nat, 2%nat)))
    = Nim.max_score (Nim.new [2%nat; 1%nat]).
Proof.
  assert (Hin : In (0%nat, 2%nat) (Nim.possible_moves (Nim.new [2%nat; 1%nat])))
    by (simpl; right; left; reflexivity).
  split; [exact Hin|]. exact (nim_make_move_effect _ 0 2 Hin).
Defined.

Lemma nim_possible_move_decreases_witness :
  In (1%nat, 1%nat) (Nim.possible_moves (Nim.new [2%nat; 1%nat])) /\
  (Nim.total (snd (Nim.make_move (Nim.new [2%nat; 1%nat]) (1%nat, 1%nat)))
     < Nim.total (Nim.new [2%nat; 1%nat]))%nat.
Proof.
  assert (Hin : In (1%nat, 1%nat) (Nim.possible_moves (Nim.new [2%nat; 1%nat])))
    by (simpl; right; right; left; reflexivity).
  split; [exact Hin|]. exact (nim_possible_move_decreases _ (1%nat, 1%nat) Hin).
Defined.

Lemma nim_make_move_switches_player_witness :
  fst (Nim.make_move (Nim.new [1%nat]) (0%nat, 1%nat)) = true /\
  Nim.player (snd (Nim.make_move (Nim.new [1%nat]) (0%nat, 1%nat)))
    <> Nim.player (Nim.new [1%nat]).
Proof.
  assert (H : fst (Nim.make_move (Nim.new [1%nat]) (0%nat, 1%nat)) = true) by reflexivity.
  split; [exact H|]. exact (nim_make_move_switches_player _ (0%nat, 1%nat) H).
Defined.

